(** * WeatherPy: a verification model of [WeatherProject_Done.py]

    The script is a straight-line pipeline: sample coordinates, resolve
    them to city names (dropping repeats), fetch one weather report per
    city, map each report to a flat row, collect the rows in a table.

    Python values are embedded as the inductive [pyval]; a [dict] is a
    finite map with string keys, so that equality of dictionaries is
    extensional, as [==] on Python dictionaries is.  Code that can raise is
    embedded in the [result] monad, and the fetch loop, which prints and
    talks to the network, in a state monad over [world].  The model ends
    with the in-memory table: writing it out, reading it back and plotting
    happen inside pandas and matplotlib. *)

From Stdlib Require Import ZArith QArith Lqa PrimFloat Ascii.
From stdpp Require Import base option list gmap strings pretty.

Set Warnings "-register-all,-inexact-float".

(** ** Python values *)

Inductive pyval :=
| PNone
| PBool (b : bool)
| PInt (n : Z)
| PFloat (x : float)
| PStr (s : string)
| PList (l : list pyval)
| PDict (d : gmap string pyval).

(** The exceptions the script can meet.  [KeyError] carries the key that
    was not found. *)
Inductive exn :=
| KeyError (key : string)
| TypeError
| ConnectionError
| JSONDecodeError.

Inductive result (A : Type) :=
| Ok (a : A)
| Raise (e : exn).
Arguments Ok {A} a.
Arguments Raise {A} e.

#[global] Instance result_ret : MRet result := @Ok.
#[global] Instance result_bind : MBind result := λ A B f m,
  match m with
  | Ok a => f a
  | Raise e => Raise e
  end.

(** [v[k]] for a string key [k]: only a dictionary can be subscripted by a
    string; a missing key raises [KeyError], any other receiver raises
    [TypeError]. *)
Definition getitem (v : pyval) (k : string) : result pyval :=
  match v with
  | PDict d =>
      match d !! k with
      | Some x => Ok x
      | None => Raise (KeyError k)
      end
  | _ => Raise TypeError
  end.

(** ** Row mapper *)

Definition get_row_from_response (response : pyval) : result (gmap string pyval) :=
  city ← getitem response "name";
  cloudiness ← getitem response "clouds" ≫= λ c, getitem c "all";
  country ← getitem response "sys" ≫= λ s, getitem s "country";
  date ← getitem response "dt";
  humidity ← getitem response "main" ≫= λ m, getitem m "humidity";
  lat ← getitem response "coord" ≫= λ c, getitem c "lat";
  lng ← getitem response "coord" ≫= λ c, getitem c "lon";
  max_temp ← getitem response "main" ≫= λ m, getitem m "temp_max";
  wind_speed ← getitem response "wind" ≫= λ w, getitem w "speed";
  Ok {[ "City" := city; "Cloudiness" := cloudiness;
        "Country" := country; "Date" := date;
        "Humidity" := humidity; "Lat" := lat;
        "Lng" := lng; "Max Temp" := max_temp;
        "Wind Speed" := wind_speed ]}.

(** The synthetic response of the scenario. *)
Definition cairns_response : pyval :=
  PDict {[ "name" := PStr "Cairns";
           "clouds" := PDict {[ "all" := PInt 75 ]};
           "sys" := PDict {[ "country" := PStr "AU" ]};
           "dt" := PInt 1435658272;
           "main" := PDict {[ "humidity" := PInt 83; "temp_max" := PFloat 295.37 ]};
           "coord" := PDict {[ "lat" := PFloat (-16.92); "lon" := PFloat 145.77 ]};
           "wind" := PDict {[ "speed" := PFloat 5.1 ]} ]}.

Definition cairns_row : gmap string pyval :=
  {[ "City" := PStr "Cairns"; "Cloudiness" := PInt 75;
     "Country" := PStr "AU"; "Date" := PInt 1435658272;
     "Humidity" := PInt 83; "Lat" := PFloat (-16.92);
     "Lng" := PFloat 145.77; "Max Temp" := PFloat 295.37;
     "Wind Speed" := PFloat 5.1 ]}.

(** ** Fields of a response

    [field v path] follows [path] through nested dictionaries; [None] means
    that the field is absent: a key of the path is missing, or a value on
    the way is not a dictionary.  A field holding JSON [null] is present. *)
Fixpoint field (v : pyval) (path : list string) : option pyval :=
  match path with
  | [] => Some v
  | k :: path' =>
      match v with
      | PDict d => d !! k ≫= λ w, field w path'
      | _ => None
      end
  end.

(** The nine places the mapper reads, in the order it reads them. *)
Definition expected_fields : list (list string) :=
  [ ["name"]; ["clouds"; "all"]; ["sys"; "country"]; ["dt"];
    ["main"; "humidity"]; ["coord"; "lat"]; ["coord"; "lon"];
    ["main"; "temp_max"]; ["wind"; "speed"] ].

Definition well_formed (body : pyval) : Prop :=
  Forall (λ path, is_Some (field body path)) expected_fields.

(** The columns of the table, as [pd.DataFrame(columns=[...])] lists them. *)
Definition df_columns : list string :=
  [ "City"; "Cloudiness"; "Country"; "Date"; "Humidity"; "Lat"; "Lng";
    "Max Temp"; "Wind Speed" ].

(** A missing-key or type error. *)
Definition lookup_error (e : exn) : Prop :=
  e = TypeError ∨ ∃ k, e = KeyError k.

(** What a computation produced, forgetting which exception it raised. *)
Definition produced {A} (r : result A) : option A :=
  match r with
  | Ok a => Some a
  | Raise _ => None
  end.

(** The mapper written over [field], in the option monad: the record the
    mapper is meant to compute when one only looks at the nine fields. *)
Definition row_of_fields (response : pyval) : option (gmap string pyval) :=
  city ← field response ["name"];
  cloudiness ← field response ["clouds"; "all"];
  country ← field response ["sys"; "country"];
  date ← field response ["dt"];
  humidity ← field response ["main"; "humidity"];
  lat ← field response ["coord"; "lat"];
  lng ← field response ["coord"; "lon"];
  max_temp ← field response ["main"; "temp_max"];
  wind_speed ← field response ["wind"; "speed"];
  Some {[ "City" := city; "Cloudiness" := cloudiness;
          "Country" := country; "Date" := date;
          "Humidity" := humidity; "Lat" := lat;
          "Lng" := lng; "Max Temp" := max_temp;
          "Wind Speed" := wind_speed ]}.

(** ** Strings

    Python strings are embedded as byte strings in UTF-8.  The byte of the
    space character occurs in UTF-8 only as that character, so replacing it
    byte by byte is replacing it character by character. *)

(** [s.replace(old, new)] for a one-character [old]. *)
Fixpoint replace (old : ascii) (new : string) (s : string) : string :=
  match s with
  | EmptyString => EmptyString
  | String c s' =>
      if Ascii.eqb c old then new +:+ replace old new s'
      else String c (replace old new s')
  end.

(** ** The world of the script: console and network *)

(** What [requests.get] hands back: the status code, and what
    [response.json()] gives (it raises when the body is not JSON). *)
Record Response := {
  status_code : Z;
  json : result pyval
}.

(** The console output so far, and the exchanges with the weather service
    so far: each URL requested, with what came back. *)
Record world := {
  stdout : list string;
  exchanges : list (string * result Response)
}.

(** The weather service: what it answers to a URL may depend on everything
    exchanged before. *)
Definition network : Type :=
  list (string * result Response) → string → result Response.

(** A statement of the script: it runs in a world, and returns or raises. *)
Definition script (A : Type) : Type := world → result A * world.

#[global] Instance script_ret : MRet script := λ A a w, (Ok a, w).
#[global] Instance script_bind : MBind script := λ A B f m w,
  match m w with
  | (Ok a, w') => f a w'
  | (Raise e, w') => (Raise e, w')
  end.

Definition lift {A} (r : result A) : script A := λ w, (r, w).

Definition print (line : string) : script () := λ w,
  (Ok (), {| stdout := stdout w ++ [line]; exchanges := exchanges w |}).

Definition requests_get (net : network) (url : string) : script Response := λ w,
  let answer := net (exchanges w) url in
  (answer, {| stdout := stdout w; exchanges := exchanges w ++ [(url, answer)] |}).

(** [for x in items: s = body(s, x)] *)
Fixpoint for_each {A S} (body : S → A → script S) (items : list A) (s : S)
    : script S :=
  match items with
  | [] => mret s
  | x :: items' => s' ← body s x; for_each body items' s'
  end.

Fixpoint enumerate_from {A} (start : nat) (items : list A) : list (nat * A) :=
  match items with
  | [] => []
  | x :: items' => (start, x) :: enumerate_from (S start) items'
  end.

Definition enumerate {A} (items : list A) : list (nat * A) :=
  enumerate_from 0 items.

(** ** Weather fetcher *)

Section Fetcher.
(** [api_key] comes from the module [api_keys], which is not part of the
    repository's sources. *)
Variable api_key : string.
Variable net : network.

(** The [url] that [get_city_data] builds. *)
Definition request_url (city_name : string) : string :=
  let encoded_city_name := replace " " "+" city_name in
  "http://api.openweathermap.org/data/2.5/weather?appid=" +:+ api_key
    +:+ "&q=" +:+ encoded_city_name.

Definition get_city_data (city_name : string) : script pyval :=
  let url := request_url city_name in
  response ← requests_get net url;
  if decide (status_code response ≠ 200%Z) then mret PNone
  else lift (json response).

(** One turn of the fetch loop. *)
Definition fetch_body (responses : list pyval) (ic : nat * string)
    : script (list pyval) :=
  let '(index, city) := ic in
  print ("Processing Record " +:+ pretty index +:+ " | " +:+ city);;
  result ← get_city_data city;
  match result with
  | PNone => print "City not found. Skipping...";; mret responses
  | _ => mret (responses ++ [result])
  end.

Definition fetch_responses (cities : list string) : script (list pyval) :=
  print "Beginning Data Retrieval";;
  print "-----------------------------";;
  responses ← for_each fetch_body (enumerate cities) [];
  print "-----------------------------";;
  print "Data Retrieval Complete";;
  print "-----------------------------";;
  print ("Finished, total count =  " +:+ pretty (length responses));;
  mret responses.
End Fetcher.

(** ** The table

    The data frame starts with the nine columns and no rows.  Every
    appended dictionary has exactly these nine keys ([get_row_keys]
    below), and [ignore_index=True] numbers the rows by position, so the
    frame is the list of its rows. *)
Definition DataFrame : Type := list (gmap string pyval).

Definition df_append (df : DataFrame) (row : gmap string pyval) : DataFrame :=
  df ++ [row].

Definition append_body (df : DataFrame) (response : pyval) : script DataFrame :=
  row ← lift (get_row_from_response response);
  mret (df_append df row).

Definition build_frame (responses : list pyval) : script DataFrame :=
  print "-----------------------------";;
  print "Adding responses to data frame";;
  print "-----------------------------";;
  df ← for_each append_body responses [];
  print ("Finished, df size =  " +:+ pretty (length df));;
  mret df.

(** ** City resolver *)

(** What [citipy.nearest_city] returns. *)
Record City := {
  city_name : string;
  country_code : string
}.

Section Resolver.
(** Coordinates are doubles, embedded as the rationals they denote. *)
Variable nearest_city : Q → Q → City.

Definition resolve_body (cities : list string) (lat_lng : Q * Q) : list string :=
  let city := city_name (nearest_city lat_lng.1 lat_lng.2) in
  if decide (city ∉ cities) then cities ++ [city] else cities.

Definition resolve_cities (lat_lngs : list (Q * Q)) : list string :=
  fold_left resolve_body lat_lngs [].
End Resolver.

(** ** Coordinate sampler *)

Section Sampler.
(** The generator's successive 53-bit outputs, and rounding to the
    nearest double. *)
Variable raw : nat → Z.
Variable rnd : Q → Q.

(** The [n]-th draw from the unit interval: a multiple of [2^-53] below 1,
    which is a double. *)
Definition random_sample (n : nat) : Q :=
  Qmake (raw n mod 2 ^ 53)%Z (2 ^ 53)%positive.

(** [np.random.uniform(low, high, size)] from draw [start] on:
    [low + (high - low) * random_sample()], each operation rounded. *)
Definition uniform (low high : Q) (size : nat) (start : nat) : list Q :=
  (λ n, rnd (low + rnd (rnd (high - low) * random_sample n))%Q) <$> seq start size.

Definition lats : list Q := uniform (-90)%Q 90%Q 1500 0.
Definition lngs : list Q := uniform (-180)%Q 180%Q 1500 1500.
Definition lat_lngs : list (Q * Q) := zip lats lngs.
End Sampler.

(** ** The script up to the in-memory table *)

Definition table_of_cities api_key net (cities : list string) : script DataFrame :=
  responses ← fetch_responses api_key net cities;
  build_frame responses.

Definition weather_table raw rnd nearest_city api_key net : script DataFrame :=
  let cities := resolve_cities nearest_city (lat_lngs raw rnd) in
  table_of_cities api_key net cities.

(** ** Notions the properties are stated with *)

(** The name with every space replaced by a plus sign, position by
    position. *)
Fixpoint space_to_plus (s : string) : string :=
  match s with
  | EmptyString => EmptyString
  | String c s' =>
      String (if decide (c = " "%char) then "+"%char else c) (space_to_plus s')
  end.

(** The name with every whitespace character (space, tab, line feed,
    vertical tab, form feed, carriage return) replaced by a plus sign. *)
Fixpoint whitespace_to_plus (s : string) : string :=
  match s with
  | EmptyString => EmptyString
  | String c s' =>
      String (if Ascii.is_space c then "+"%char else c) (whitespace_to_plus s')
  end.

(** The body an exchange contributes to [responses]: the parsed body of a
    status-200 answer, unless it is JSON [null]. *)
Definition kept (exchange : string * result Response) : option pyval :=
  match exchange.2 with
  | Ok response =>
      if decide (status_code response = 200%Z) then
        match json response with
        | Ok PNone => None
        | Ok body => Some body
        | Raise _ => None
        end
      else None
  | Raise _ => None
  end.

(** The successful responses of a run of exchanges, in order. *)
Definition successful (exchanges : list (string * result Response)) : list pyval :=
  omap kept exchanges.


(** ** Sample inputs *)

(** The response documented in the head of the script. *)
Definition documented_response : pyval :=
  PDict {[ "coord" := PDict {[ "lon" := PFloat 145.77; "lat" := PFloat (-16.92) ]};
           "weather" := PList [ PDict {[ "id" := PInt 803; "main" := PStr "Clouds";
                                         "description" := PStr "broken clouds";
                                         "icon" := PStr "04n" ]} ];
           "base" := PStr "cmc stations";
           "main" := PDict {[ "temp" := PFloat 293.25; "pressure" := PInt 1019;
                              "humidity" := PInt 83; "temp_min" := PFloat 289.82;
                              "temp_max" := PFloat 295.37 ]};
           "wind" := PDict {[ "speed" := PFloat 5.1; "deg" := PInt 150 ]};
           "clouds" := PDict {[ "all" := PInt 75 ]};
           "rain" := PDict {[ "3h" := PInt 3 ]};
           "dt" := PInt 1435658272;
           "sys" := PDict {[ "type" := PInt 1; "id" := PInt 8166;
                             "message" := PFloat 0.0166; "country" := PStr "AU";
                             "sunrise" := PInt 1435610796;
                             "sunset" := PInt 1435650870 ]};
           "id" := PInt 2172797;
           "name" := PStr "Cairns";
           "cod" := PInt 200 ]}.

Definition empty_world : world := {| stdout := []; exchanges := [] |}.

Definition cairns_answer : Response :=
  {| status_code := 200; json := Ok cairns_response |}.

Definition not_found_answer : Response :=
  {| status_code := 404;
     json := Ok (PDict {[ "cod" := PStr "404"; "message" := PStr "city not found" ]}) |}.

(** A service that knows Cairns and nothing else. *)
Definition cairns_service : network := λ _ url,
  if decide (url = request_url "KEY" "cairns") then Ok cairns_answer
  else Ok not_found_answer.

(** A resolver that sends the northern half of the globe to one city and the
    southern half to another. *)
Definition two_cities (lat lng : Q) : City :=
  if Qle_bool 0 lat then {| city_name := "tromso"; country_code := "no" |}
  else {| city_name := "ushuaia"; country_code := "ar" |}.

(** A generator that counts up in steps of [2^50], the name of a city with a
    tab in it, and the eighth pair sampled from that generator without
    rounding. *)
Definition sample_raw (n : nat) : Z := (Z.of_nat n * 2 ^ 50)%Z.

Definition tab_name : string := String "a" (String "009" (String "b" EmptyString)).

Definition sample_pair : Q * Q :=
  nth 7 (lat_lngs sample_raw (λ x, x)) (0, 0)%Q.

(** ** Further sample inputs *)



(** A service that cannot be reached, one that answers every request with
    status 200 and the body [null], and one that knows no city. *)
Definition unreachable_service : network := λ _ _, Raise ConnectionError.

Definition null_service : network := λ _ _,
  Ok {| status_code := 200; json := Ok PNone |}.

Definition unknown_service : network := λ _ _, Ok not_found_answer.

(** The characters of a string, in order. *)
Fixpoint chars (s : string) : list ascii :=
  match s with
  | EmptyString => []
  | String c s' => c :: chars s'
  end.

(** The city each sampled pair resolves to, pair by pair. *)
Definition resolved_names (nearest_city : Q → Q → City)
    (lat_lngs : list (Q * Q)) : list string :=
  (λ lat_lng, city_name (nearest_city lat_lng.1 lat_lng.2)) <$> lat_lngs.

(** * Properties *)

(** ** Facts about subscripting *)

Lemma produced_bind {A B} (m : result A) (f : A → result B) :
  produced (m ≫= f) = produced m ≫= λ a, produced (f a).
Proof. by destruct m. Qed.

Lemma produced_getitem v k : produced (getitem v k) = field v [k].
Proof.
  destruct v; simpl; try done.
  by destruct (d !! k).
Qed.

Lemma produced_getitem2 v k1 k2 :
  produced (getitem v k1 ≫= λ c, getitem c k2) = field v [k1; k2].
Proof.
  rewrite produced_bind. destruct v; simpl; try done.
  destruct (d !! k1) as [c|]; simpl; [|done].
  apply produced_getitem.
Qed.

Lemma getitem_raises v k e : getitem v k = Raise e → lookup_error e.
Proof.
  unfold getitem, lookup_error. destruct v; try (intros [= <-]; by left).
  destruct (d !! k); [done|]. intros [= <-]. right. by eexists.
Qed.

Lemma getitem2_raises v k1 k2 e :
  (getitem v k1 ≫= λ c, getitem c k2) = Raise e → lookup_error e.
Proof.
  destruct (getitem v k1) as [c|e'] eqn:E; simpl.
  - apply getitem_raises.
  - intros [= <-]. by eapply getitem_raises.
Qed.

Lemma bind_raises {A B} (m : result A) (f : A → result B) e :
  m ≫= f = Raise e → m = Raise e ∨ ∃ a, m = Ok a ∧ f a = Raise e.
Proof. destruct m; intros H; [right; eauto | left; by inversion H]. Qed.

(** The mapper only ever raises missing-key or type errors. *)
Lemma get_row_raises response e :
  get_row_from_response response = Raise e → lookup_error e.
Proof.
  unfold get_row_from_response. intros H.
  repeat match type of H with
  | _ ≫= _ = Raise _ =>
      apply bind_raises in H as [H | (? & _ & H)];
      [ first [ by eapply getitem_raises | by eapply getitem2_raises ] | ]
  end.
  done.
Qed.

(** The record the mapper produces is the one read off the nine fields. *)
Lemma produced_get_row response :
  produced (get_row_from_response response) = row_of_fields response.
Proof.
  unfold get_row_from_response, row_of_fields.
  repeat (rewrite produced_bind;
          first [ rewrite produced_getitem | rewrite produced_getitem2 ];
          apply option_bind_ext_fun; intros ?).
  done.
Qed.

(** C2: on the synthetic Cairns response the row mapper returns exactly the
    record with City "Cairns", Cloudiness 75, Country "AU", Date 1435658272,
    Humidity 83, Lat -16.92, Lng 145.77, Max Temp 295.37 and Wind Speed 5.1. *)
Theorem get_row_cairns : get_row_from_response cairns_response = Ok cairns_row.
Proof. vm_compute. reflexivity. Qed.

(** ** The row mapper *)

(** Case analysis on every field read in [H], keeping the present ones. *)
Ltac destruct_fields H response :=
  repeat match type of H with
  | context [field response ?p] =>
      destruct (field response p) eqn:?; [|discriminate H]
  end.

Lemma row_of_fields_well_formed response row :
  row_of_fields response = Some row → well_formed response.
Proof.
  unfold row_of_fields, well_formed, expected_fields. intros H.
  destruct_fields H response.
  repeat (constructor; [by eexists|]). constructor.
Qed.

Lemma well_formed_row_of_fields response :
  well_formed response → is_Some (row_of_fields response).
Proof.
  unfold well_formed, expected_fields, row_of_fields. intros H.
  repeat match type of H with
  | Forall _ (_ :: _) => apply Forall_cons in H as [[? ->] H]
  end.
  simpl. by eexists.
Qed.

(** On a well-formed body the mapper returns a row. *)
Lemma get_row_well_formed body :
  well_formed body → ∃ row, get_row_from_response body = Ok row.
Proof.
  intros [row H]%well_formed_row_of_fields.
  rewrite <- produced_get_row in H.
  destruct (get_row_from_response body) as [row'|]; [by eexists | done].
Qed.

Lemma get_row_ok_well_formed body row :
  get_row_from_response body = Ok row → well_formed body.
Proof.
  intros H. apply (row_of_fields_well_formed body row).
  by rewrite <- produced_get_row, H.
Qed.

(** A row has exactly the nine columns of the table: no partial record,
    and no column beyond those the frame was created with. *)
Lemma get_row_keys response row :
  get_row_from_response response = Ok row →
  dom row = list_to_set df_columns.
Proof.
  intros H. assert (row_of_fields response = Some row) as H'
    by (by rewrite <- produced_get_row, H).
  unfold row_of_fields in H'. destruct_fields H' response.
  injection H' as <-. rewrite !dom_insert_L, dom_singleton_L. simpl. set_solver.
Qed.

(** C6: when one of the nine expected fields is absent from the response,
    the row mapper raises a missing-key or type error; it returns no
    record, partial or otherwise. *)
Theorem get_row_missing_field response path :
  path ∈ expected_fields →
  field response path = None →
  ∃ e, get_row_from_response response = Raise e ∧ lookup_error e.
Proof.
  intros Hin Habsent.
  destruct (get_row_from_response response) as [row|e] eqn:E.
  - apply get_row_ok_well_formed in E.
    unfold well_formed in E. rewrite Forall_forall in E.
    destruct (E path Hin) as [v Hv]. congruence.
  - exists e. split; [done|]. by eapply get_row_raises.
Qed.

Lemma get_row_missing_field_witness :
  ∃ e, get_row_from_response
         (PDict {[ "name" := PStr "Cairns"; "clouds" := PInt 75 ]}) = Raise e
       ∧ lookup_error e.
Proof.
  apply (get_row_missing_field _ ["clouds"; "all"]).
  - unfold expected_fields. apply list_elem_of_further, list_elem_of_here.
  - reflexivity.
Defined.

(** C10: the row mapper's output depends only on the nine fields it reads.
    Two responses that agree on name, clouds.all, sys.country, dt,
    main.humidity, coord.lat, coord.lon, main.temp_max and wind.speed are
    mapped to equal records (or neither is mapped to a record), whatever
    else either response holds. *)
Theorem get_row_depends_on_fields_only response1 response2 :
  (∀ path, path ∈ expected_fields → field response1 path = field response2 path) →
  produced (get_row_from_response response1)
  = produced (get_row_from_response response2).
Proof.
  intros H. rewrite !produced_get_row. unfold row_of_fields.
  rewrite !H; [done | unfold expected_fields; set_solver ..].
Qed.

Lemma get_row_depends_on_fields_only_witness :
  produced (get_row_from_response cairns_response)
  = produced (get_row_from_response documented_response).
Proof.
  apply get_row_depends_on_fields_only.
  intros path H. unfold expected_fields in H.
  repeat (apply elem_of_cons in H as [-> | H]; [vm_compute; reflexivity|]).
  by apply elem_of_nil in H.
Defined.

(** ** Running statements *)

Lemma bind_run {A B} (m : script A) (f : A → script B) w :
  (m ≫= f) w =
  match m w with
  | (Ok a, w') => f a w'
  | (Raise e, w') => (Raise e, w')
  end.
Proof. reflexivity. Qed.


(** ** The weather fetcher *)

Section FetcherFacts.
Context (api_key : string) (net : network).

Lemma replace_space_to_plus s : replace " " "+" s = space_to_plus s.
Proof.
  induction s as [|c s IH]; simpl; [done|]. rewrite IH.
  destruct (Ascii.eqb_spec c " ") as [->|Hne].
  - by rewrite decide_True.
  - by rewrite decide_False.
Qed.

(** What one call of the fetcher does. *)
Lemma get_city_data_run city_name w :
  let url := request_url api_key city_name in
  let answer := net (exchanges w) url in
  get_city_data api_key net city_name w =
  (match answer with
   | Ok response =>
       if decide (status_code response = 200%Z) then json response
       else Ok PNone
   | Raise e => Raise e
   end,
   {| stdout := stdout w; exchanges := exchanges w ++ [(url, answer)] |}).
Proof.
  intros url answer. unfold get_city_data. rewrite bind_run.
  unfold requests_get. fold url. fold answer.
  destruct answer as [response|e]; [|done].
  destruct (decide (status_code response = 200%Z)) as [H|H].
  - rewrite decide_False by (by intros ?). done.
  - by rewrite decide_True.
Qed.

(** What one turn of the fetch loop does. *)
Lemma fetch_body_run responses index city w :
  let line := "Processing Record " +:+ pretty index +:+ " | " +:+ city in
  let url := request_url api_key city in
  let answer := net (exchanges w) url in
  let w1 := {| stdout := stdout w ++ [line];
               exchanges := exchanges w ++ [(url, answer)] |} in
  let w2 := {| stdout := stdout w1 ++ ["City not found. Skipping..."];
               exchanges := exchanges w1 |} in
  fetch_body api_key net responses (index, city) w =
  match answer with
  | Raise e => (Raise e, w1)
  | Ok response =>
      if decide (status_code response = 200%Z) then
        match json response with
        | Raise e => (Raise e, w1)
        | Ok PNone => (Ok responses, w2)
        | Ok body => (Ok (responses ++ [body]), w1)
        end
      else (Ok responses, w2)
  end.
Proof.
  intros line url answer w1 w2. unfold fetch_body.
  rewrite bind_run. unfold print at 1. fold line.
  rewrite bind_run, get_city_data_run. simpl. fold url. fold answer.
  destruct answer as [response|e]; [|done].
  destruct (decide (status_code response = 200%Z)); [|done].
  destruct (json response) as [body|e']; [|done].
  by destruct body.
Qed.
End FetcherFacts.

(** C7 (amended): for every city name the fetcher requests the URL made
    of the fixed prefix, the API key, "&q=" and the name with every space
    character replaced by a plus sign; it returns the parsed JSON body
    when the status is exactly 200 and [None] for any other status. *)
Theorem get_city_data_spec (api_key : string) (net : network) city_name w :
  let url := "http://api.openweathermap.org/data/2.5/weather?appid="
               +:+ api_key +:+ "&q=" +:+ space_to_plus city_name in
  let answer := net (exchanges w) url in
  get_city_data api_key net city_name w =
  (match answer with
   | Ok response =>
       if decide (status_code response = 200%Z) then json response
       else Ok PNone
   | Raise e => Raise e
   end,
   {| stdout := stdout w; exchanges := exchanges w ++ [(url, answer)] |}).
Proof.
  intros url answer. rewrite get_city_data_run.
  unfold request_url. by rewrite replace_space_to_plus.
Qed.

(** C7 as stated fails for whitespace other than the space character: in
    the city name [tab_name], "a", tab, "b", the tab is whitespace, and the
    URL requested still carries it, where the claim has "a+b". *)
Lemma get_city_data_keeps_tab :
  whitespace_to_plus tab_name = "a+b" ∧
  (exchanges (get_city_data "KEY" cairns_service tab_name empty_world).2).*1
  = ["http://api.openweathermap.org/data/2.5/weather?appid=KEY&q=" +:+ tab_name] ∧
  (exchanges (get_city_data "KEY" cairns_service tab_name empty_world).2).*1
  ≠ ["http://api.openweathermap.org/data/2.5/weather?appid=KEY&q="
       +:+ whitespace_to_plus tab_name].
Proof. vm_compute. split; [done|]. split; [done|]. discriminate. Qed.

(** ** The fetch loop *)

Section FetchLoop.
Context (api_key : string) (net : network).


(** Each turn asks the service once, for the URL of its city, and
    [responses] grows by what the exchange contributes. *)
Lemma fetch_body_exchange responses ic w responses' w' :
  fetch_body api_key net responses ic w = (Ok responses', w') →
  ∃ answer, let x := (request_url api_key ic.2, answer) in
    exchanges w' = exchanges w ++ [x] ∧
    responses' = responses ++ successful [x].
Proof.
  destruct ic as [index city]. rewrite fetch_body_run.
  set (url := request_url api_key city).
  destruct (net (exchanges w) url) as [response|e] eqn:E; [|done].
  destruct (decide (status_code response = 200%Z)) as [H|H].
  - destruct (json response) as [body|e] eqn:J; [|done].
    destruct body; intros [= <- <-]; eexists; (split; [done|]);
      unfold successful, kept; simpl; rewrite decide_True, J by done;
      by rewrite ?app_nil_r.
  - intros [= <- <-]. eexists. split; [done|].
    unfold successful, kept. simpl. rewrite decide_False by done.
    by rewrite app_nil_r.
Qed.

(** The loop asks once per city, in the order of the list. *)
Lemma fetch_loop_exchanges items responses w responses' w' :
  for_each (fetch_body api_key net) items responses w = (Ok responses', w') →
  ∃ new, exchanges w' = exchanges w ++ new ∧
         responses' = responses ++ successful new ∧
         new.*1 = (λ ic, request_url api_key ic.2) <$> items.
Proof.
  revert responses w. induction items as [|ic items IH]; intros responses w.
  - intros [= <- <-]. exists []. by rewrite !app_nil_r.
  - simpl. rewrite bind_run.
    destruct (fetch_body api_key net responses ic w) as [[r1|e] w1] eqn:E;
      [|done].
    apply fetch_body_exchange in E as (answer & Hx & ->).
    intros (new & Hnew & -> & Hurls)%IH.
    exists ((request_url api_key ic.2, answer) :: new).
    rewrite Hnew, Hx, <- !app_assoc. simpl.
    split; [done|]. split; [|by f_equal].
    unfold successful. simpl.
    destruct (kept _); simpl; by rewrite ?app_nil_r.
Qed.

Lemma enumerate_from_snd {A} start (items : list A) :
  (enumerate_from start items).*2 = items.
Proof. revert start. induction items; intros; simpl; [done | by f_equal]. Qed.

End FetchLoop.

(** ** The table loop *)

Lemma append_body_run df response w :
  append_body df response w =
  match get_row_from_response response with
  | Ok row => (Ok (df ++ [row]), w)
  | Raise e => (Raise e, w)
  end.
Proof.
  unfold append_body. rewrite bind_run. unfold lift.
  by destruct (get_row_from_response response).
Qed.

(** The table loop leaves the world alone and appends, in order, the row
    of each response. *)
Lemma append_loop_rows responses df w df' w' :
  for_each append_body responses df w = (Ok df', w') →
  w' = w ∧ ∃ rows, df' = df ++ rows ∧
    Forall2 (λ body row, get_row_from_response body = Ok row) responses rows.
Proof.
  revert df. induction responses as [|body responses IH]; intros df.
  - intros [= <- <-]. split; [done|]. exists []. by rewrite app_nil_r.
  - simpl. rewrite bind_run, append_body_run.
    destruct (get_row_from_response body) as [row|e] eqn:E; [|done].
    intros [-> (rows & -> & Hrows)]%IH. split; [done|].
    exists (row :: rows). rewrite <- app_assoc. split; [done|].
    by constructor.
Qed.


Lemma print_bind {A} line (k : script A) w :
  (print line;; k) w =
  k {| stdout := stdout w ++ [line]; exchanges := exchanges w |}.
Proof. reflexivity. Qed.

Section Pipeline.
Context (api_key : string) (net : network).

Lemma fetch_responses_run cities w responses w' :
  fetch_responses api_key net cities w = (Ok responses, w') →
  ∃ new, exchanges w' = exchanges w ++ new ∧
         responses = successful new ∧
         new.*1 = request_url api_key <$> cities.
Proof.
  unfold fetch_responses. rewrite !print_bind, bind_run.
  destruct (for_each _ _ _ _) as [[r|e] w1] eqn:E; [|done].
  apply fetch_loop_exchanges in E as (new & Hnew & -> & Hurls).
  rewrite !print_bind. intros [= <- <-]. exists new.
  split; [done|]. split; [done|]. rewrite Hurls.
  rewrite <- (enumerate_from_snd 0 cities) at 2.
  by rewrite <- list_fmap_compose.
Qed.


Lemma build_frame_run responses w df w' :
  build_frame responses w = (Ok df, w') →
  exchanges w' = exchanges w ∧
  Forall2 (λ body row, get_row_from_response body = Ok row) responses df.
Proof.
  unfold build_frame. rewrite !print_bind, bind_run.
  destruct (for_each _ _ _ _) as [[df1|e] w1] eqn:E; [|done].
  apply append_loop_rows in E as [-> (rows & -> & Hrows)].
  rewrite print_bind. by intros [= <- <-].
Qed.



End Pipeline.





(** The whole run on two cities, one unknown to the service. *)
Example table_of_two_cities :
  (table_of_cities "KEY" cairns_service ["atlantis"; "cairns"] empty_world).1
  = Ok [cairns_row].
Proof. vm_compute. reflexivity. Qed.

(** ** The city resolver *)

Section ResolverFacts.
Context (nearest_city : Q → Q → City).

Lemma resolve_body_NoDup cities lat_lng :
  NoDup cities → NoDup (resolve_body nearest_city cities lat_lng).
Proof.
  intros Hnd. unfold resolve_body. case_decide as Hnew; [|done].
  apply NoDup_app. split; [done|]. split; [|apply NoDup_singleton].
  intros x Hx ->%list_elem_of_singleton. done.
Qed.

Lemma resolve_loop_NoDup lat_lngs cities :
  NoDup cities → NoDup (fold_left (resolve_body nearest_city) lat_lngs cities).
Proof.
  revert cities. induction lat_lngs as [|lat_lng lat_lngs IH]; intros cities Hnd.
  - done.
  - simpl. by apply IH, resolve_body_NoDup.
Qed.

Lemma resolve_body_keeps cities lat_lng city :
  city ∈ cities → city ∈ resolve_body nearest_city cities lat_lng.
Proof.
  intros H. unfold resolve_body. case_decide; [|done].
  apply elem_of_app. by left.
Qed.

Lemma resolve_loop_keeps lat_lngs cities city :
  city ∈ cities → city ∈ fold_left (resolve_body nearest_city) lat_lngs cities.
Proof.
  revert cities. induction lat_lngs as [|lat_lng lat_lngs IH]; intros cities H.
  - done.
  - simpl. by apply IH, resolve_body_keeps.
Qed.

(** Every sampled pair has its city in the list. *)
Lemma resolve_cities_complete lat_lngs lat lng :
  (lat, lng) ∈ lat_lngs →
  city_name (nearest_city lat lng) ∈ resolve_cities nearest_city lat_lngs.
Proof.
  unfold resolve_cities. generalize (@nil string).
  induction lat_lngs as [|lat_lng lat_lngs IH]; intros cities Hin.
  - by apply elem_of_nil in Hin.
  - simpl. apply elem_of_cons in Hin as [<- | Hin]; [|by apply IH].
    apply resolve_loop_keeps. unfold resolve_body. simpl.
    case_decide as Hnew.
    + apply elem_of_app. right. apply list_elem_of_singleton. done.
    + done.
Qed.

(** C4: after the city-resolution stage the city list holds no name
    twice: at any two distinct positions the names differ. *)
Theorem resolve_cities_distinct lat_lngs i j city_i city_j :
  i ≠ j →
  resolve_cities nearest_city lat_lngs !! i = Some city_i →
  resolve_cities nearest_city lat_lngs !! j = Some city_j →
  city_i ≠ city_j.
Proof.
  intros Hij Hi Hj <-. apply Hij.
  eapply NoDup_lookup; [|exact Hi|exact Hj].
  apply resolve_loop_NoDup, NoDup_nil_2.
Qed.
End ResolverFacts.

Lemma resolve_cities_distinct_witness : "tromso" ≠ "ushuaia".
Proof.
  apply (resolve_cities_distinct two_cities
           [(10, 20); (-54, -68); (69, 18); (-1, 0)]%Q 0 1).
  - lia.
  - reflexivity.
  - reflexivity.
Defined.

(** ** The coordinate sampler *)

Lemma random_sample_unit raw n : (0 <= random_sample raw n < 1)%Q.
Proof.
  unfold random_sample, Qle, Qlt. simpl.
  pose proof (Z.mod_pos_bound (raw n) (2 ^ 53) eq_refl) as [H0 H1].
  change (Z.pow_pos 2 53) with (2 ^ 53)%Z in *. lia.
Qed.

Section SamplerFacts.
Context (raw : nat → Z) (rnd : Q → Q).

(** What is assumed of rounding to the nearest double: it is monotone,
    and exact on the integers up to [2^53]. *)
Hypothesis rnd_monotone : ∀ x y, (x <= y)%Q → (rnd x <= rnd y)%Q.
Hypothesis rnd_integer :
  ∀ n : Z, (Z.abs n <= 2 ^ 53)%Z → (rnd (inject_Z n) == inject_Z n)%Q.

Lemma rnd_between (lo hi : Z) x :
  (Z.abs lo <= 2 ^ 53)%Z → (Z.abs hi <= 2 ^ 53)%Z →
  (inject_Z lo <= x <= inject_Z hi)%Q →
  (inject_Z lo <= rnd x <= inject_Z hi)%Q.
Proof.
  intros Hlo Hhi [H1 H2]. split.
  - rewrite <- (rnd_integer lo Hlo). by apply rnd_monotone.
  - rewrite <- (rnd_integer hi Hhi). by apply rnd_monotone.
Qed.

Lemma uniform_range (lo hi : Z) size start x :
  (lo <= hi)%Z →
  (Z.abs lo <= 2 ^ 53)%Z → (Z.abs hi <= 2 ^ 53)%Z →
  (hi - lo <= 2 ^ 53)%Z →
  x ∈ uniform raw rnd (inject_Z lo) (inject_Z hi) size start →
  (inject_Z lo <= x <= inject_Z hi)%Q.
Proof.
  intros Hle Hlo Hhi Hd. unfold uniform.
  intros (n & -> & _)%list_elem_of_fmap.
  pose proof (random_sample_unit raw n) as [Hu0 Hu1].
  set (u := random_sample raw n) in *.
  assert (inject_Z (hi - lo) <= rnd (inject_Z hi - inject_Z lo)
          <= inject_Z (hi - lo))%Q as [Hw1 Hw2].
  { apply rnd_between; [lia..|].
    unfold Qminus. rewrite <- inject_Z_opp, <- inject_Z_plus.
    split; apply Qle_refl. }
  set (width := rnd (inject_Z hi - inject_Z lo)) in *.
  assert (0 <= inject_Z (hi - lo))%Q as Hd0.
  { change 0%Q with (inject_Z 0). rewrite <- Zle_Qle. lia. }
  assert (inject_Z 0 <= rnd (width * u) <= inject_Z (hi - lo))%Q as [Hs1 Hs2].
  { apply rnd_between; [lia..|]. change (inject_Z 0) with 0%Q. split; nra. }
  change (inject_Z 0) with 0%Q in Hs1.
  apply rnd_between; [done..|].
  change (hi - lo)%Z with (hi + - lo)%Z in Hs2.
  rewrite inject_Z_plus, inject_Z_opp in Hs2. split; lra.
Qed.

(** C5: every coordinate pair the sampler produces has its latitude in
    [-90, 90] and its longitude in [-180, 180]. *)
Theorem lat_lngs_in_range p :
  p ∈ lat_lngs raw rnd →
  (-90 <= p.1 <= 90)%Q ∧ (-180 <= p.2 <= 180)%Q.
Proof.
  destruct p as [lat lng]. unfold lat_lngs. intros H. split.
  - apply elem_of_zip_l in H.
    by apply (uniform_range (-90) 90 1500 0).
  - apply elem_of_zip_r in H.
    by apply (uniform_range (-180) 180 1500 1500).
Qed.

Lemma lat_lngs_length : length (lat_lngs raw rnd) = 1500.
Proof.
  unfold lat_lngs, lats, lngs, uniform.
  by rewrite length_zip, !length_fmap, !length_seq.
Qed.
End SamplerFacts.

Lemma lat_lngs_in_range_witness :
  sample_pair ∈ lat_lngs sample_raw (λ x, x) ∧
  (-90 <= sample_pair.1 <= 90)%Q ∧ (-180 <= sample_pair.2 <= 180)%Q.
Proof.
  assert (sample_pair ∈ lat_lngs sample_raw (λ x, x)) as Hin.
  { apply (list_elem_of_lookup_2 _ 7). vm_compute. reflexivity. }
  split; [exact Hin|].
  apply (lat_lngs_in_range sample_raw (λ x, x)).
  - intros x y Hxy. exact Hxy.
  - intros n _. apply Qeq_refl.
  - exact Hin.
Defined.

(** ** The script as a whole *)

Lemma table_of_cities_requests api_key net cities w df w' :
  table_of_cities api_key net cities w = (Ok df, w') →
  ∃ new, exchanges w' = exchanges w ++ new ∧
         new.*1 = request_url api_key <$> cities ∧
         Forall2 (λ body row, get_row_from_response body = Ok row)
           (successful new) df.
Proof.
  unfold table_of_cities. rewrite bind_run.
  destruct (fetch_responses _ _ _ _) as [[responses|e] w1] eqn:E; [|done].
  apply fetch_responses_run in E as (new & Hnew & -> & Hurls).
  intros [Hx Hrows]%build_frame_run.
  exists new. split; [congruence|]. split; [exact Hurls | exact Hrows].
Qed.

(** Whenever the script gets to its table, it has asked the service once
    for each resolved city, in order, and no city twice. *)
Lemma weather_table_requests raw rnd nearest_city api_key net w df w' :
  weather_table raw rnd nearest_city api_key net w = (Ok df, w') →
  NoDup (resolve_cities nearest_city (lat_lngs raw rnd)) ∧
  ∃ new, exchanges w' = exchanges w ++ new ∧
         new.*1 = request_url api_key
                    <$> resolve_cities nearest_city (lat_lngs raw rnd) ∧
         Forall2 (λ body row, get_row_from_response body = Ok row)
           (successful new) df.
Proof.
  unfold weather_table.
  generalize (lat_lngs raw rnd). intros sampled H. split.
  - apply resolve_loop_NoDup, NoDup_nil_2.
  - exact (table_of_cities_requests _ _ _ _ _ _ H).
Qed.

(** * Further properties *)

(** ** The row mapper, further *)

(** X1: the mapper returns a row exactly when the nine fields are
    present; a field holding [None] counts as present. *)
Theorem get_row_ok_iff_well_formed body :
  (∃ row, get_row_from_response body = Ok row) ↔ well_formed body.
Proof.
  split.
  - intros [row H]. by eapply get_row_ok_well_formed.
  - apply get_row_well_formed.
Qed.

(** X2: in a row, each column holds the field it is named after: City the
    name, Cloudiness clouds.all, Country sys.country, Date dt, Humidity
    main.humidity, Lat coord.lat, Lng coord.lon, Max Temp main.temp_max
    and Wind Speed wind.speed, each copied as it is. *)
Theorem get_row_column_values response row :
  get_row_from_response response = Ok row →
  row !! "City" = field response ["name"] ∧
  row !! "Cloudiness" = field response ["clouds"; "all"] ∧
  row !! "Country" = field response ["sys"; "country"] ∧
  row !! "Date" = field response ["dt"] ∧
  row !! "Humidity" = field response ["main"; "humidity"] ∧
  row !! "Lat" = field response ["coord"; "lat"] ∧
  row !! "Lng" = field response ["coord"; "lon"] ∧
  row !! "Max Temp" = field response ["main"; "temp_max"] ∧
  row !! "Wind Speed" = field response ["wind"; "speed"].
Proof.
  intros H. assert (row_of_fields response = Some row) as H'
    by (by rewrite <- produced_get_row, H).
  unfold row_of_fields in H'. destruct_fields H' response.
  injection H' as <-. repeat split; vm_compute; reflexivity.
Qed.

Lemma get_row_column_values_witness :
  cairns_row !! "City" = field cairns_response ["name"] ∧
  cairns_row !! "Cloudiness" = field cairns_response ["clouds"; "all"] ∧
  cairns_row !! "Country" = field cairns_response ["sys"; "country"] ∧
  cairns_row !! "Date" = field cairns_response ["dt"] ∧
  cairns_row !! "Humidity" = field cairns_response ["main"; "humidity"] ∧
  cairns_row !! "Lat" = field cairns_response ["coord"; "lat"] ∧
  cairns_row !! "Lng" = field cairns_response ["coord"; "lon"] ∧
  cairns_row !! "Max Temp" = field cairns_response ["main"; "temp_max"] ∧
  cairns_row !! "Wind Speed" = field cairns_response ["wind"; "speed"].
Proof.
  apply (get_row_column_values cairns_response cairns_row).
  reflexivity.
Defined.

(** X3: a response that is not a dictionary (a JSON array, string, number,
    boolean) makes the mapper raise [TypeError]. *)
Theorem get_row_not_dict response :
  (∀ d, response ≠ PDict d) →
  get_row_from_response response = Raise TypeError.
Proof.
  intros H. destruct response; try reflexivity. by destruct (H d).
Qed.

Lemma get_row_not_dict_witness :
  get_row_from_response (PList [cairns_response]) = Raise TypeError.
Proof. apply get_row_not_dict. intros d. discriminate. Defined.





(** ** The fetch loop, further *)

Section FetchLoopFurther.
Context (api_key : string) (net : network).

(** A turn that returns either skipped its city, with two lines printed,
    or kept a body that is not [None], with one line printed. *)
Lemma fetch_body_cases responses ic w responses' w' :
  fetch_body api_key net responses ic w = (Ok responses', w') →
  (responses' = responses ∧ length (stdout w') = length (stdout w) + 2) ∨
  (∃ body, body ≠ PNone ∧ responses' = responses ++ [body] ∧
           length (stdout w') = length (stdout w) + 1).
Proof.
  destruct ic as [index city]. rewrite fetch_body_run.
  destruct (net _ _) as [response|e1]; [|done].
  destruct (decide _).
  - destruct (json response) as [body|e2]; [|done].
    destruct body; intros [= <- <-]; simpl;
      first [ left; split; [done|]; rewrite !length_app; simpl; lia
            | right; eexists; split; [|split; [done|]];
              [done | rewrite !length_app; simpl; lia] ].
  - intros [= <- <-]. left. split; [done|]. simpl.
    rewrite !length_app. simpl. lia.
Qed.

Lemma fetch_loop_cases items responses w responses' w' :
  for_each (fetch_body api_key net) items responses w = (Ok responses', w') →
  ∃ kept_bodies, responses' = responses ++ kept_bodies ∧
    Forall (λ body, body ≠ PNone) kept_bodies ∧
    length kept_bodies ≤ length items ∧
    length (stdout w') + length kept_bodies
    = length (stdout w) + 2 * length items.
Proof.
  revert responses w. induction items as [|ic items IH]; intros responses w.
  - intros [= <- <-]. exists []. rewrite app_nil_r. simpl.
    split; [done|]. split; [constructor | lia].
  - simpl. rewrite bind_run.
    destruct (fetch_body api_key net responses ic w) as [[r1|e] w1] eqn:E;
      [|done].
    intros (bodies & -> & Hne & Hle & Hlen)%IH.
    apply fetch_body_cases in E as [[-> Hout] | (body & Hb & -> & Hout)].
    + exists bodies. split; [done|]. split; [done | lia].
    + exists (body :: bodies). rewrite <- app_assoc. split; [done|].
      split; [by constructor | simpl; lia].
Qed.

(** X5: an answer with status 200 whose body is JSON [null] is treated as
    a city not found: nothing is added to [responses], the skip notice is
    printed, and the loop goes on. *)
Theorem fetch_loop_null_body index city rest responses w response :
  net (exchanges w) (request_url api_key city) = Ok response →
  status_code response = 200%Z →
  json response = Ok PNone →
  for_each (fetch_body api_key net)
    (enumerate_from index (city :: rest)) responses w
  = for_each (fetch_body api_key net) (enumerate_from (S index) rest) responses
      {| stdout := stdout w
           ++ ["Processing Record " +:+ pretty index +:+ " | " +:+ city]
           ++ ["City not found. Skipping..."];
         exchanges := exchanges w
           ++ [(request_url api_key city, Ok response)] |}.
Proof.
  intros Hnet H200 Hjson. cbn [enumerate_from for_each].
  rewrite bind_run, fetch_body_run, Hnet, decide_True, Hjson by done.
  simpl. by rewrite <- app_assoc.
Qed.

(** X6: when the request itself raises, or a status-200 body is not JSON,
    the loop stops there with that exception: one line printed, one
    request made, and no later city is asked for. *)
Theorem fetch_loop_halts_on_error index city rest responses w e :
  match net (exchanges w) (request_url api_key city) with
  | Raise e' => e' = e
  | Ok response => status_code response = 200%Z ∧ json response = Raise e
  end →
  for_each (fetch_body api_key net)
    (enumerate_from index (city :: rest)) responses w
  = (Raise e,
     {| stdout := stdout w
          ++ ["Processing Record " +:+ pretty index +:+ " | " +:+ city];
        exchanges := exchanges w
          ++ [(request_url api_key city,
               net (exchanges w) (request_url api_key city))] |}).
Proof.
  intros H. cbn [enumerate_from for_each].
  rewrite bind_run, fetch_body_run.
  destruct (net _ _) as [response|e'].
  - destruct H as [H200 Hjson]. by rewrite decide_True, Hjson.
  - by subst.
Qed.

(** X7: a completed fetch accounts for every city: each one either added
    a response and printed one line, or added none and printed two, so
    lines and responses together grow by two per city, on top of the six
    lines around the loop; and there are never more responses than
    cities. *)
Theorem fetch_responses_accounting cities w responses w' :
  fetch_responses api_key net cities w = (Ok responses, w') →
  length (stdout w') + length responses
  = length (stdout w) + 6 + 2 * length cities ∧
  length responses ≤ length cities.
Proof.
  unfold fetch_responses. rewrite !print_bind, bind_run.
  destruct (for_each _ _ _ _) as [[r|e] w1] eqn:E; [|done].
  apply fetch_loop_cases in E as (bodies & -> & _ & Hle & Hlen).
  rewrite !print_bind. intros [= <- <-]. simpl in *.
  unfold enumerate in Hlen, Hle.
  assert (length (enumerate_from 0 cities) = length cities) as Hn.
  { rewrite <- (enumerate_from_snd 0 cities) at 2. by rewrite length_fmap. }
  rewrite Hn in Hlen, Hle. rewrite !length_app in *. simpl in *. lia.
Qed.

(** X8: [responses] never holds [None], so the table loop never
    subscripts [None]. *)
Theorem fetch_responses_never_None cities w responses w' :
  fetch_responses api_key net cities w = (Ok responses, w') →
  Forall (λ body, body ≠ PNone) responses.
Proof.
  unfold fetch_responses. rewrite !print_bind, bind_run.
  destruct (for_each _ _ _ _) as [[r|e] w1] eqn:E; [|done].
  apply fetch_loop_cases in E as (bodies & -> & Hne & _ & _).
  rewrite !print_bind. by intros [= <- <-].
Qed.


End FetchLoopFurther.

Lemma fetch_loop_null_body_witness :
  for_each (fetch_body "KEY" null_service)
    (enumerate_from 0 ["cairns"; "atlantis"]) [] empty_world
  = for_each (fetch_body "KEY" null_service) (enumerate_from 1 ["atlantis"]) []
      {| stdout := ["Processing Record 0 | cairns";
                    "City not found. Skipping..."];
         exchanges := [(request_url "KEY" "cairns",
                        Ok {| status_code := 200; json := Ok PNone |})] |}.
Proof.
  apply (fetch_loop_null_body "KEY" null_service 0 "cairns" ["atlantis"] []
           empty_world {| status_code := 200; json := Ok PNone |});
    reflexivity.
Defined.

Lemma fetch_loop_halts_on_error_witness :
  for_each (fetch_body "KEY" unreachable_service)
    (enumerate_from 0 ["cairns"; "atlantis"]) [] empty_world
  = (Raise ConnectionError,
     {| stdout := ["Processing Record 0 | cairns"];
        exchanges := [(request_url "KEY" "cairns", Raise ConnectionError)] |}).
Proof.
  apply (fetch_loop_halts_on_error "KEY" unreachable_service 0 "cairns"
           ["atlantis"] [] empty_world ConnectionError).
  reflexivity.
Defined.

Lemma fetch_responses_accounting_witness :
  length (stdout (fetch_responses "KEY" cairns_service
                    ["atlantis"; "cairns"; "lemuria"] empty_world).2)
  + length [cairns_response]
  = length (stdout empty_world) + 6
    + 2 * length ["atlantis"; "cairns"; "lemuria"] ∧
  length [cairns_response] ≤ length ["atlantis"; "cairns"; "lemuria"].
Proof.
  apply (fetch_responses_accounting "KEY" cairns_service
           ["atlantis"; "cairns"; "lemuria"] empty_world [cairns_response]
           (fetch_responses "KEY" cairns_service
              ["atlantis"; "cairns"; "lemuria"] empty_world).2).
  vm_compute. reflexivity.
Defined.

Lemma fetch_responses_never_None_witness :
  Forall (λ body, body ≠ PNone) [cairns_response].
Proof.
  apply (fetch_responses_never_None "KEY" cairns_service
           ["atlantis"; "cairns"] empty_world [cairns_response]
           (fetch_responses "KEY" cairns_service
              ["atlantis"; "cairns"] empty_world).2).
  vm_compute. reflexivity.
Defined.

(** ** The request URL, further *)

(** X10: the encoded name has no space left in it and is as long as the
    name: every space became one plus sign and nothing else changed
    length. *)
Theorem encoded_name_no_space name :
  (" "%char ∉ chars (replace " " "+" name)) ∧
  length (chars (replace " " "+" name)) = length (chars name).
Proof.
  induction name as [|c name [IH1 IH2]]; simpl.
  - split; [apply not_elem_of_nil | done].
  - destruct (Ascii.eqb_spec c " ") as [->|Hne]; simpl.
    + split; [|by f_equal].
      intros [H|H]%elem_of_cons; [discriminate H | done].
    + split; [|by f_equal].
      intros [H|H]%elem_of_cons; [by apply Hne | done].
Qed.

Lemma replace_plus_free_inj name1 name2 :
  "+"%char ∉ chars name1 → "+"%char ∉ chars name2 →
  replace " " "+" name1 = replace " " "+" name2 → name1 = name2.
Proof.
  revert name2. induction name1 as [|c1 name1 IH]; intros [|c2 name2]; simpl.
  - done.
  - intros _ _. by destruct (Ascii.eqb c2 " ").
  - intros _ _. by destruct (Ascii.eqb c1 " ").
  - intros H1 H2.
    apply not_elem_of_cons in H1 as [Hc1 H1].
    apply not_elem_of_cons in H2 as [Hc2 H2].
    destruct (Ascii.eqb_spec c1 " ") as [->|Hn1];
      destruct (Ascii.eqb_spec c2 " ") as [->|Hn2]; simpl;
      intros H; inversion H; subst; try done.
    all: f_equal; by apply IH.
Qed.

(** X11: two city names without a plus sign in them that lead to the same
    request URL are the same name: distinct such cities are asked for
    under distinct URLs. *)
Theorem request_url_inj api_key name1 name2 :
  "+"%char ∉ chars name1 → "+"%char ∉ chars name2 →
  request_url api_key name1 = request_url api_key name2 →
  name1 = name2.
Proof.
  intros H1 H2. unfold request_url.
  intros H. apply (inj (String.app _)) in H.
  apply (inj (String.app _)) in H. apply (inj (String.app _)) in H.
  by apply replace_plus_free_inj.
Qed.

Lemma request_url_inj_witness : "port louis" = "port louis".
Proof.
  apply (request_url_inj "KEY" "port louis" "port louis").
  - vm_compute. intros H. repeat (apply elem_of_cons in H as [H|H]; [discriminate H|]).
    by apply elem_of_nil in H.
  - vm_compute. intros H. repeat (apply elem_of_cons in H as [H|H]; [discriminate H|]).
    by apply elem_of_nil in H.
  - reflexivity.
Defined.

(** X12: encoding is idempotent, so a name and its encoded form lead to
    the same request URL: the service cannot tell "a b" from "a+b". *)
Theorem request_url_encoded_name api_key name :
  request_url api_key (replace " " "+" name) = request_url api_key name.
Proof.
  unfold request_url. do 3 f_equal.
  induction name as [|c name IH]; simpl; [done|].
  destruct (Ascii.eqb_spec c " ") as [->|Hne]; simpl.
  - by f_equal.
  - destruct (Ascii.eqb_spec c " "); [done|]. by f_equal.
Qed.

(** ** The city resolver, further *)

Section ResolverFurther.
Context (nearest_city : Q → Q → City).

Lemma resolve_loop_prefix lat_lngs cities :
  cities `prefix_of` fold_left (resolve_body nearest_city) lat_lngs cities.
Proof.
  revert cities. induction lat_lngs as [|lat_lng lat_lngs IH]; intros cities.
  - done.
  - simpl. etrans; [|apply IH]. unfold resolve_body.
    case_decide; [by apply prefix_app_r | done].
Qed.

Lemma resolve_loop_sound lat_lngs cities city :
  city ∈ fold_left (resolve_body nearest_city) lat_lngs cities →
  city ∈ cities ∨ city ∈ resolved_names nearest_city lat_lngs.
Proof.
  revert cities. induction lat_lngs as [|lat_lng lat_lngs IH]; intros cities.
  - by left.
  - simpl. intros [H | H]%IH.
    + unfold resolve_body in H. case_decide; [|by left].
      apply elem_of_app in H as [H | ->%list_elem_of_singleton]; [by left|].
      right. apply list_elem_of_here.
    + right. by apply list_elem_of_further.
Qed.

Lemma resolve_loop_length lat_lngs cities :
  length (fold_left (resolve_body nearest_city) lat_lngs cities)
  ≤ length cities + length lat_lngs.
Proof.
  revert cities. induction lat_lngs as [|lat_lng lat_lngs IH]; intros cities.
  - simpl. lia.
  - simpl. etrans; [apply IH|]. unfold resolve_body.
    case_decide; rewrite ?length_app; simpl; lia.
Qed.

(** X13: the city list holds exactly the cities that some sampled pair
    resolves to: none is missed and none is made up. *)
Theorem resolve_cities_elem lat_lngs city :
  city ∈ resolve_cities nearest_city lat_lngs ↔
  ∃ lat lng, (lat, lng) ∈ lat_lngs ∧ city = city_name (nearest_city lat lng).
Proof.
  split.
  - intros [H | H]%resolve_loop_sound; [by apply elem_of_nil in H|].
    unfold resolved_names in H.
    apply list_elem_of_fmap in H as ([lat lng] & -> & Hin). by exists lat, lng.
  - intros (lat & lng & Hin & ->). by apply resolve_cities_complete.
Qed.

(** X14: the list only grows at its end: the cities found from the first
    pairs keep their positions however many pairs follow. *)
Theorem resolve_cities_prefix lat_lngs1 lat_lngs2 :
  resolve_cities nearest_city lat_lngs1
  `prefix_of` resolve_cities nearest_city (lat_lngs1 ++ lat_lngs2).
Proof.
  unfold resolve_cities. rewrite fold_left_app. apply resolve_loop_prefix.
Qed.

Lemma resolve_loop_distinct lat_lngs cities :
  NoDup (cities ++ resolved_names nearest_city lat_lngs) →
  fold_left (resolve_body nearest_city) lat_lngs cities
  = cities ++ resolved_names nearest_city lat_lngs.
Proof.
  revert cities. induction lat_lngs as [|lat_lng lat_lngs IH]; intros cities.
  - by rewrite app_nil_r.
  - simpl. intros Hnd. unfold resolve_body at 2.
    rewrite decide_True.
    + rewrite IH; rewrite <- app_assoc; done.
    + apply NoDup_app in Hnd as (_ & Hnot & _). intros Hin.
      apply (Hnot _ Hin). apply list_elem_of_here.
Qed.

(** X15: when the sampled pairs resolve to pairwise distinct cities,
    nothing is dropped: the list is the resolved names in sampling
    order. *)
Theorem resolve_cities_distinct_kept lat_lngs :
  NoDup (resolved_names nearest_city lat_lngs) →
  resolve_cities nearest_city lat_lngs = resolved_names nearest_city lat_lngs.
Proof. intros H. by apply (resolve_loop_distinct lat_lngs []). Qed.
End ResolverFurther.

Lemma resolve_cities_distinct_kept_witness :
  resolve_cities two_cities [(-54, -68); (69, 18)]%Q = ["ushuaia"; "tromso"].
Proof.
  apply (resolve_cities_distinct_kept two_cities [(-54, -68); (69, 18)]%Q).
  unfold resolved_names. simpl. apply NoDup_cons. split; [|apply NoDup_singleton].
  intros H%list_elem_of_singleton. discriminate H.
Defined.

(** ** The table, further *)

(** X16: every row of a built table has exactly the nine columns the frame
    was created with, and the table has as many rows as there were
    responses. *)
Theorem build_frame_rows_have_columns responses w df w' :
  build_frame responses w = (Ok df, w') →
  Forall (λ row, dom row = list_to_set df_columns) df ∧
  length df = length responses.
Proof.
  intros [_ Hrows]%build_frame_run. split.
  - induction Hrows as [|body row responses df Hrow _ IH]; constructor.
    + by eapply get_row_keys.
    + exact IH.
  - symmetry. by eapply Forall2_length.
Qed.

Lemma build_frame_rows_have_columns_witness :
  Forall (λ row, dom row = list_to_set df_columns) [cairns_row; cairns_row] ∧
  length [cairns_row; cairns_row] = length [cairns_response; documented_response].
Proof.
  apply (build_frame_rows_have_columns [cairns_response; documented_response]
           empty_world [cairns_row; cairns_row]
           (build_frame [cairns_response; documented_response] empty_world).2).
  reflexivity.
Defined.





(** ** The script, further *)

Section PipelineFurther.
Context (api_key : string) (net : network).

Lemma fetch_loop_all_unknown items responses w :
  (∀ history url, ∃ response,
     net history url = Ok response ∧ status_code response ≠ 200%Z) →
  ∃ w', for_each (fetch_body api_key net) items responses w = (Ok responses, w') ∧
        length (exchanges w') = length (exchanges w) + length items.
Proof.
  intros Hnet. revert w. induction items as [|[index city] items IH]; intros w.
  - exists w. simpl. split; [done | lia].
  - cbn [for_each]. rewrite bind_run, fetch_body_run.
    destruct (Hnet (exchanges w) (request_url api_key city))
      as (response & -> & Hne).
    rewrite decide_False by done.
    edestruct IH as (w' & -> & Hlen). exists w'. split; [done|].
    simpl in Hlen. rewrite length_app in Hlen. simpl in *. lia.
Qed.

(** X18: when the service knows none of the cities (every answer has a
    status other than 200), the script still completes: it asks once per
    city and builds a table without rows. *)
Theorem table_of_cities_all_unknown cities w :
  (∀ history url, ∃ response,
     net history url = Ok response ∧ status_code response ≠ 200%Z) →
  ∃ w', table_of_cities api_key net cities w = (Ok [], w') ∧
        length (exchanges w') = length (exchanges w) + length cities.
Proof.
  intros Hnet. unfold table_of_cities, fetch_responses.
  rewrite bind_run, !print_bind, bind_run.
  edestruct (fetch_loop_all_unknown (enumerate cities) []) as (w1 & -> & Hlen);
    [done|].
  eexists. split; [reflexivity|]. simpl.
  rewrite Hlen. unfold enumerate.
  rewrite <- (enumerate_from_snd 0 cities) at 2. by rewrite length_fmap.
Qed.
End PipelineFurther.

Lemma table_of_cities_all_unknown_witness :
  ∃ w', table_of_cities "KEY" unknown_service ["atlantis"; "lemuria"] empty_world
        = (Ok [], w') ∧
        length (exchanges w') = length (exchanges empty_world) + 2.
Proof.
  apply (table_of_cities_all_unknown "KEY" unknown_service).
  intros history url. exists not_found_answer. split; [reflexivity|].
  intros H. discriminate H.
Defined.

Lemma successful_length xs : length (successful xs) ≤ length xs.
Proof.
  unfold successful. induction xs as [|x xs IH]; csimpl; [lia|].
  destruct (kept x); csimpl; lia.
Qed.

(** X19: a run of the script that gets to its table has made at most 1500
    requests, one per resolved city, and the table has at most as many
    rows as requests were made. *)
Theorem weather_table_at_most_1500_requests
    raw rnd nearest_city api_key net w df w' :
  weather_table raw rnd nearest_city api_key net w = (Ok df, w') →
  ∃ new, exchanges w' = exchanges w ++ new ∧
         length new = length (resolve_cities nearest_city (lat_lngs raw rnd)) ∧
         length new ≤ 1500 ∧
         length df ≤ length new.
Proof.
  intros (_ & new & Hnew & Hurls & Hrows)%weather_table_requests.
  exists new. split; [done|].
  assert (length new = length (resolve_cities nearest_city (lat_lngs raw rnd)))
    as Hlen.
  { rewrite <- (length_fmap fst new), Hurls. apply length_fmap. }
  split; [done|]. split.
  - rewrite Hlen. unfold resolve_cities.
    etrans; [apply resolve_loop_length|]. by rewrite lat_lngs_length.
  - rewrite <- (Forall2_length _ _ _ Hrows). apply successful_length.
Qed.

Lemma weather_table_at_most_1500_requests_witness :
  ∃ new, exchanges (weather_table sample_raw (λ x, x) two_cities "KEY"
                      unknown_service empty_world).2
         = exchanges empty_world ++ new ∧
         length new
         = length (resolve_cities two_cities (lat_lngs sample_raw (λ x, x))) ∧
         length new ≤ 1500 ∧
         length (@nil (gmap string pyval)) ≤ length new.
Proof.
  apply (weather_table_at_most_1500_requests sample_raw (λ x, x) two_cities
           "KEY" unknown_service empty_world []).
  vm_compute. reflexivity.
Defined.

(** ** The progress log *)

Section ProgressLog.
Context (api_key : string) (net : network).

Lemma fetch_body_stdout responses index city w responses' w' :
  fetch_body api_key net responses (index, city) w = (Ok responses', w') →
  ∃ more, stdout w'
          = stdout w
            ++ ("Processing Record " +:+ pretty index +:+ " | " +:+ city) :: more.
Proof.
  rewrite fetch_body_run.
  destruct (net _ _) as [response|e1]; [|done].
  destruct (decide _).
  - destruct (json response) as [body|e2]; [|done].
    destruct body; intros [= <- <-]; simpl;
      first [ exists []; reflexivity
            | eexists; rewrite <- app_assoc; reflexivity ].
  - intros [= <- <-]. simpl. eexists. rewrite <- app_assoc. reflexivity.
Qed.

Lemma fetch_loop_stdout start items responses w responses' w' :
  for_each (fetch_body api_key net) (enumerate_from start items) responses w
  = (Ok responses', w') →
  (∃ more, stdout w' = stdout w ++ more) ∧
  ∀ i city, items !! i = Some city →
    ("Processing Record " +:+ pretty (start + i) +:+ " | " +:+ city)
    ∈ stdout w'.
Proof.
  revert start responses w.
  induction items as [|city0 items IH]; intros start responses w.
  - intros [= <- <-]. split; [exists []; by rewrite app_nil_r | done].
  - cbn [enumerate_from for_each]. rewrite bind_run.
    destruct (fetch_body _ _ _ _ _) as [[r1|e] w1] eqn:E; [|done].
    apply fetch_body_stdout in E as [more1 Hw1].
    intros [[more Hw'] Hlines]%IH. split.
    + exists (("Processing Record " +:+ pretty start +:+ " | " +:+ city0)
              :: more1 ++ more).
      rewrite Hw', Hw1, <- app_assoc. done.
    + intros [|i] city Hi.
      * injection Hi as ->. rewrite Nat.add_0_r, Hw', Hw1.
        apply elem_of_app. left. apply elem_of_app. right.
        apply list_elem_of_here.
      * replace (start + S i) with (S start + i) by lia. by apply Hlines.
Qed.

(** X20: a completed fetch has announced every city on the console with
    its number and its name, numbering from 0 in the order of the list. *)
Theorem fetch_responses_announces_each_city cities w responses w' i city :
  fetch_responses api_key net cities w = (Ok responses, w') →
  cities !! i = Some city →
  ("Processing Record " +:+ pretty i +:+ " | " +:+ city) ∈ stdout w'.
Proof.
  unfold fetch_responses. rewrite !print_bind, bind_run.
  destruct (for_each _ _ _ _) as [[r|e] w1] eqn:E; [|done].
  apply fetch_loop_stdout in E as [_ Hlines].
  rewrite !print_bind. intros [= <- <-] Hi. simpl.
  do 4 (apply elem_of_app; left). by apply (Hlines i city).
Qed.
End ProgressLog.

Lemma fetch_responses_announces_each_city_witness :
  "Processing Record 1 | cairns"
  ∈ stdout (fetch_responses "KEY" cairns_service ["atlantis"; "cairns"]
              empty_world).2.
Proof.
  apply (fetch_responses_announces_each_city "KEY" cairns_service
           ["atlantis"; "cairns"] empty_world [cairns_response] _ 1 "cairns").
  - reflexivity.
  - reflexivity.
Defined.
